(** * discover_api.py: the endpoint discovery runner

    A shallow embedding of [server/scripts/discover_api.py].  The script
    loops over a literal list of HuggingFace space identifiers; for each
    one it prints a three-line header, builds a [gradio_client.Client],
    prints what [view_api] returns, and on an [Exception] prints one
    line naming the space and the exception.

    The client library is third-party and talks to remote services, so
    it is a parameter of the development: two state-passing operations
    over an arbitrary world, each of which returns a value or raises.
    Everything the script itself does that can be observed (its [print]
    calls and its calls into the library) is recorded, in order, as a
    list of events.  What the library may write to the console on its
    own is not part of the record.

    The builtins [print] and [str] belong to the environment as well:
    [print] raises when the console refuses a line, and [str(e)] runs
    the [__str__] of whoever raised [e].  [iteration_env] and
    [discover_env] are the script over such an environment; [iteration]
    and [discover] are the same code where the console takes every line
    and [str(e)] returns. *)

From Stdlib Require Import String Ascii List ZArith Bool.
Import ListNotations.
Local Open Scope string_scope.
Local Open Scope list_scope.

(** ** Python values the script manipulates *)

(** ['=' * 60]: repetition of a string. *)
Fixpoint str_mul (s : string) (n : nat) : string :=
  match n with
  | O => EmptyString
  | S n' => s ++ str_mul s n'
  end.

(** The one-character string ["\n"]. *)
Definition newline : string := String "010"%char EmptyString.

(** A raised exception object, reduced to what the script and the
    interpreter look at: whether [except Exception] matches it (false for
    [KeyboardInterrupt], [SystemExit], [GeneratorExit] and other direct
    [BaseException] subclasses), what [str(e)] returns when it returns,
    and the status the interpreter exits with when the exception reaches
    the top level. *)
Record raised : Type := mkRaised {
  isinstance_Exception : bool;
  str_e : string;
  uncaught_status : Z
}.

(** Outcome of evaluating an expression: a value or a raised exception. *)
Inductive result (A : Type) : Type :=
| Returns (a : A)
| Raises (e : raised).
Arguments Returns {A} a.
Arguments Raises {A} e.

(** What an observer of the process can see, in the order it happens:
    one [print] call of the script that wrote its argument, the
    construction [Client(space)], the call [client.view_api()]. *)
Inductive event : Type :=
| Print (s : string)
| Connect (space : string)
| Describe.

(** The lines the script's [print] calls wrote, oldest first. *)
Fixpoint stdout (evs : list event) : list string :=
  match evs with
  | [] => []
  | Print s :: evs' => s :: stdout evs'
  | _ :: evs' => stdout evs'
  end.

(** The identifiers handed to [Client], oldest first. *)
Fixpoint connects (evs : list event) : list string :=
  match evs with
  | [] => []
  | Connect s :: evs' => s :: connects evs'
  | _ :: evs' => connects evs'
  end.

(** How many times [view_api] was called. *)
Fixpoint describes (evs : list event) : nat :=
  match evs with
  | [] => 0
  | Describe :: evs' => S (describes evs')
  | _ :: evs' => describes evs'
  end.

(** The characters written to the console: [print] appends a newline
    to its argument. *)
Fixpoint console (lines : list string) : string :=
  match lines with
  | [] => EmptyString
  | l :: lines' => l ++ newline ++ console lines'
  end.

(** The literal list bound to [spaces] in [discover_endpoints]. *)
Definition spaces : list string :=
  [ "innoai/Edge-TTS-Text-to-Speech";
    "k2-fsa/text-to-speech" ].

(** The three f-strings and the repeated separator. *)
Definition separator : string := str_mul "=" 60.
Definition header_top : string := newline ++ separator.
Definition header_label (space : string) : string :=
  "Discovering endpoints for: " ++ space.
Definition failure_line (space : string) (e : raised) : string :=
  "Failed to connect to " ++ space ++ ": " ++ str_e e.

(** The three header lines of one identifier. *)
Definition header (space : string) : list string :=
  [ header_top; header_label space; separator ].

(** Status of the process once [discover_endpoints()] has run at top
    level: 0 when it returns, the exception's status when it propagates. *)
Definition exit_code (r : result unit) : Z :=
  match r with
  | Returns _ => 0%Z
  | Raises e => uncaught_status e
  end.

(** ** The runner over an arbitrary environment *)

Section Runner.

(** State outside the script: the remote services, the library, the
    console. *)
Variable World : Type.
(** The object [Client(space)] evaluates to. *)
Variable Handle : Type.
(** [Client(space)]. *)
Variable Client : string -> World -> result Handle * World.
(** [client.view_api()], as the text [print] writes for its value. *)
Variable view_api : Handle -> World -> result string * World.
(** The builtin [print] on one line; it raises when the console cannot
    take the line ([UnicodeEncodeError], [OSError], [BrokenPipeError]). *)
Variable builtin_print : string -> World -> result unit * World.
(** The builtin [str] on an exception, which [{e}] in an f-string
    calls; the [__str__] it runs may raise. *)
Variable builtin_str : raised -> World -> result string * World.

(** What running a piece of the script yields: its outcome, the
    events it caused, the world it leaves. *)
Record ran (A : Type) : Type := mkRan {
  outcome : result A;
  events : list event;
  world_after : World
}.
Arguments mkRan {A}.
Arguments outcome {A}.
Arguments events {A}.
Arguments world_after {A}.

Definition M (A : Type) : Type := World -> ran A.

Definition ret {A} (a : A) : M A :=
  fun w => mkRan (Returns a) [] w.

(** Sequencing: a raised exception skips the rest. *)
Definition bind {A B} (m : M A) (k : A -> M B) : M B :=
  fun w =>
    let r := m w in
    match outcome r with
    | Returns a =>
        let r' := k a (world_after r) in
        mkRan (outcome r') (events r ++ events r') (world_after r')
    | Raises e => mkRan (Raises e) (events r) (world_after r)
    end.

Notation "x <- m ;; k" := (bind m (fun x => k))
  (at level 61, m at next level, right associativity).
Notation "m ;; k" := (bind m (fun _ => k))
  (at level 61, right associativity).

(** [print(s)]: the line is on record when the builtin returned. *)
Definition print (s : string) : M unit :=
  fun w =>
    let (r, w') := builtin_print s w in
    match r with
    | Returns _ => mkRan (Returns tt) [Print s] w'
    | Raises e => mkRan (Raises e) [] w'
    end.

(** [str(e)], as [{e}] evaluates it. *)
Definition str (e : raised) : M string :=
  fun w => let (r, w') := builtin_str e w in mkRan r [] w'.

Definition call_Client (space : string) : M Handle :=
  fun w => let (r, w') := Client space w in mkRan r [Connect space] w'.

Definition call_view_api (client : Handle) : M string :=
  fun w => let (r, w') := view_api client w in mkRan r [Describe] w'.

(** [try: body except Exception as e: handler(e)].  An exception the
    clause does not match keeps propagating, and so does whatever the
    handler raises. *)
Definition try_except_Exception (body : M unit) (handler : raised -> M unit)
  : M unit :=
  fun w =>
    let r := body w in
    match outcome r with
    | Returns a => r
    | Raises e =>
        if isinstance_Exception e then
          let r' := handler e (world_after r) in
          mkRan (outcome r') (events r ++ events r') (world_after r')
        else r
    end.

(** [for x in l: body(x)]. *)
Fixpoint for_in (l : list string) (body : string -> M unit) : M unit :=
  match l with
  | [] => ret tt
  | x :: l' => body x ;; for_in l' body
  end.

(** The body of the [for] loop. *)
Definition iteration_env (space : string) : M unit :=
  try_except_Exception
    (print (newline ++ str_mul "=" 60) ;;
     print ("Discovering endpoints for: " ++ space) ;;
     print (str_mul "=" 60) ;;
     client <- call_Client space ;;
     text <- call_view_api client ;;
     print text)
    (fun e =>
       detail <- str e ;;
       print ("Failed to connect to " ++ space ++ ": " ++ detail)).

(** The loop of [discover_endpoints], over any list of identifiers. *)
Definition discover_env (l : list string) : M unit :=
  for_in l iteration_env.

(** [discover_endpoints()]. *)
Definition discover_endpoints_env : M unit :=
  discover_env spaces.

(** [if __name__ == "__main__": discover_endpoints()], as the status
    the process exits with. *)
Definition main_env (w : World) : Z :=
  exit_code (outcome (discover_endpoints_env w)).

(** Several [print] calls in a row. *)
Fixpoint prints (lines : list string) : M unit :=
  match lines with
  | [] => ret tt
  | l :: lines' => print l ;; prints lines'
  end.

(** The expression [Client(space).view_api()] on its own: what the
    library answers for one identifier. *)
Definition fetch (space : string) : M string :=
  client <- call_Client space ;; call_view_api client.

(** The lines one iteration prints, as a function of the identifier
    and of the library's answer for it. *)
Definition section_lines (space : string) (answer : result string)
  : list string :=
  header space ++
  match answer with
  | Returns text => [text]
  | Raises e => if isinstance_Exception e then [failure_line space e] else []
  end.

(** [Client(space).view_api()] raises [e] from world [w], leaving
    world [w']: either the constructor raises, or it returns a client
    whose [view_api] raises. *)
Inductive fails_with (space : string) (w : World) (e : raised) (w' : World)
  : Prop :=
| connection_fails :
    Client space w = (Raises e, w') -> fails_with space w e w'
| description_fails (h : Handle) (w1 : World) :
    Client space w = (Returns h, w1) ->
    view_api h w1 = (Raises e, w') -> fails_with space w e w'.

(** Whether [except Exception] stops an answer from propagating. *)
Definition caught (answer : result string) : bool :=
  match answer with
  | Returns _ => true
  | Raises e => isinstance_Exception e
  end.

(** The lines printed for a list of identifiers and the answers the
    library gave for them. *)
Fixpoint transcript (l : list string) (ans : list (result string))
  : list string :=
  match l, ans with
  | space :: l', a :: ans' => section_lines space a ++ transcript l' ans'
  | _, _ => []
  end.

End Runner.

Arguments mkRan {World A} outcome events world_after.
Arguments outcome {World A} r.
Arguments events {World A} r.
Arguments world_after {World A} r.
Arguments ret {World A} a w.
Arguments bind {World A B} m k w.
Arguments print {World} builtin_print s w.
Arguments str {World} builtin_str e w.
Arguments prints {World} builtin_print lines w.
Arguments try_except_Exception {World} body handler w.
Arguments for_in {World} l body w.
Arguments call_Client {World Handle} Client space w.
Arguments call_view_api {World Handle} view_api client w.
Arguments iteration_env {World Handle} Client view_api builtin_print builtin_str
  space w.
Arguments discover_env {World Handle} Client view_api builtin_print builtin_str
  l w.
Arguments discover_endpoints_env {World Handle} Client view_api builtin_print
  builtin_str w.
Arguments main_env {World Handle} Client view_api builtin_print builtin_str w.
Arguments fetch {World Handle} Client view_api space w.
Arguments fails_with {World Handle} Client view_api space w e w'.

(** ** The runner on a console that takes every line

    The same code in an environment where [print] always returns and
    [str(e)] returns the text of [e]. *)

Definition always_prints {World : Type} (s : string) (w : World)
  : result unit * World :=
  (Returns tt, w).

Definition str_returns {World : Type} (e : raised) (w : World)
  : result string * World :=
  (Returns (str_e e), w).

Definition iteration {World Handle : Type}
  (Client : string -> World -> result Handle * World)
  (view_api : Handle -> World -> result string * World)
  (space : string) : M World unit :=
  iteration_env Client view_api always_prints str_returns space.

Definition discover {World Handle : Type}
  (Client : string -> World -> result Handle * World)
  (view_api : Handle -> World -> result string * World)
  (l : list string) : M World unit :=
  discover_env Client view_api always_prints str_returns l.

Definition discover_endpoints {World Handle : Type}
  (Client : string -> World -> result Handle * World)
  (view_api : Handle -> World -> result string * World) : M World unit :=
  discover Client view_api spaces.

Definition main {World Handle : Type}
  (Client : string -> World -> result Handle * World)
  (view_api : Handle -> World -> result string * World) (w : World) : Z :=
  exit_code (outcome (discover_endpoints Client view_api w)).

(** The library's answers during a run of the loop, one for each
    identifier the loop gets to, in order. *)
Fixpoint answers {World Handle : Type}
  (Client : string -> World -> result Handle * World)
  (view_api : Handle -> World -> result string * World)
  (l : list string) (w : World) : list (result string) :=
  match l with
  | [] => []
  | space :: l' =>
      let r := iteration Client view_api space w in
      outcome (fetch Client view_api space w) ::
      match outcome r with
      | Returns _ => answers Client view_api l' (world_after r)
      | Raises _ => []
      end
  end.

(** ** A small client library to run the script against

    The world counts the calls made into the library; a handle remembers
    the identifier it was built from.  Two identifiers refuse the
    connection, one with an ordinary error and one with an interrupt;
    one connects but has no readable schema. *)

Definition ConnectionError : raised :=
  mkRaised true "Could not fetch config" 1.
Definition ValueError : raised :=
  mkRaised true "Could not parse API info" 1.
Definition KeyboardInterrupt : raised :=
  mkRaised false EmptyString 130.

Definition toy_Client (space : string) (calls : nat) : result string * nat :=
  if String.eqb space "down" then (Raises ConnectionError, S calls)
  else if String.eqb space "stop" then (Raises KeyboardInterrupt, S calls)
  else (Returns space, S calls).

Definition toy_view_api (client : string) (calls : nat) : result string * nat :=
  if String.eqb client "garbled" then (Raises ValueError, S calls)
  else (Returns ("Client.predict() Usage Info for " ++ client)%string, S calls).

(** The user interrupts the first blocking call into the library. *)
Definition interrupted_Client (space : string) (w : unit) : result unit * unit :=
  (Raises KeyboardInterrupt, w).

Definition idle_view_api (client : unit) (w : unit) : result string * unit :=
  (Returns EmptyString, w).

(** A console with an ASCII encoding: [print] raises on a line that
    holds a character outside it. *)
Definition UnicodeEncodeError : raised :=
  mkRaised true "ascii codec cannot encode character" 1.

Fixpoint is_ascii (s : string) : bool :=
  match s with
  | EmptyString => true
  | String c s' => Nat.ltb (nat_of_ascii c) 128 && is_ascii s'
  end.

Definition ascii_print (s : string) (calls : nat) : result unit * nat :=
  if is_ascii s then (Returns tt, calls) else (Raises UnicodeEncodeError, calls).

(** A space whose schema text has an accent in it. *)
Definition accented : string :=
  ("caf" ++ String "233"%char EmptyString)%string.

Definition accented_view_api (client : string) (calls : nat)
  : result string * nat :=
  (Returns accented, S calls).

(** Exceptions whose [__str__] raises. *)
Definition RuntimeError : raised :=
  mkRaised true "__str__ failed" 1.

Definition raising_str (e : raised) (calls : nat) : result string * nat :=
  (Raises RuntimeError, calls).

(** A library that only fails with ordinary errors. *)
Definition calm_Client (space : string) (calls : nat) : result string * nat :=
  if String.eqb space "down" then (Raises ConnectionError, S calls)
  else (Returns space, S calls).

(** ** Properties on a console that takes every line

    The statements of this part are about [iteration] and [discover]:
    every [print] returns and [str(e)] is the text of [e].  The part
    after it drops both assumptions. *)

Section RunnerProperties.

Context {World Handle : Type}.
Variable Client : string -> World -> result Handle * World.
Variable view_api : Handle -> World -> result string * World.

Local Notation "'run'" := (discover Client view_api).
Local Notation "'iter'" := (iteration Client view_api).
Local Notation "'lib'" := (fetch Client view_api).

Lemma stdout_app (a b : list event) :
  stdout (a ++ b) = stdout a ++ stdout b.
Proof.
  induction a as [|[s|s|] a IH]; simpl; try rewrite IH; reflexivity.
Qed.

Lemma connects_app (a b : list event) :
  connects (a ++ b) = connects a ++ connects b.
Proof.
  induction a as [|[s|s|] a IH]; simpl; try rewrite IH; reflexivity.
Qed.

Lemma stdout_prints (lines : list string) :
  stdout (map Print lines) = lines.
Proof.
  induction lines as [|l lines IH]; simpl; [|rewrite IH]; reflexivity.
Qed.

Lemma connects_prints (lines : list string) :
  connects (map Print lines) = [].
Proof.
  induction lines as [|l lines IH]; simpl; auto.
Qed.

Lemma str_app_assoc (a b c : string) :
  ((a ++ b) ++ c = a ++ (b ++ c))%string.
Proof.
  induction a as [|ch a IH]; simpl; [|rewrite IH]; reflexivity.
Qed.

Lemma console_app (a b : list string) :
  console (a ++ b) = (console a ++ console b)%string.
Proof.
  induction a as [|l a IH]; simpl; [reflexivity|].
  rewrite IH. now rewrite !str_app_assoc.
Qed.

(** What the library call pair does, by cases on the two answers. *)
Lemma fetch_connect_raises space w e w1 :
  Client space w = (Raises e, w1) ->
  lib space w = mkRan (Raises e) [Connect space] w1.
Proof.
  intros HC. unfold fetch, bind, call_Client. rewrite HC. reflexivity.
Qed.

Lemma fetch_connected space w h w1 :
  Client space w = (Returns h, w1) ->
  lib space w =
  mkRan (fst (view_api h w1)) [Connect space; Describe] (snd (view_api h w1)).
Proof.
  intros HC. unfold fetch, bind, call_Client, call_view_api. rewrite HC.
  simpl. destruct (view_api h w1) as [r w2]. reflexivity.
Qed.

Lemma fetch_events space w :
  events (lib space w) = [Connect space] \/
  events (lib space w) = [Connect space; Describe].
Proof.
  destruct (Client space w) as [[h|e] w1] eqn:HC.
  - right. now rewrite (fetch_connected _ _ _ _ HC).
  - left. now rewrite (fetch_connect_raises _ _ _ _ HC).
Qed.

Lemma fetch_stdout space w : stdout (events (lib space w)) = [].
Proof. destruct (fetch_events space w) as [-> | ->]; reflexivity. Qed.

Lemma fetch_connects space w : connects (events (lib space w)) = [space].
Proof. destruct (fetch_events space w) as [-> | ->]; reflexivity. Qed.

(** One iteration in terms of the library's answer. *)
Lemma iteration_by_answer space w :
  iter space w =
  match outcome (lib space w) with
  | Returns text =>
      mkRan (Returns tt)
            (map Print (header space) ++ events (lib space w) ++ [Print text])
            (world_after (lib space w))
  | Raises e =>
      if isinstance_Exception e then
        mkRan (Returns tt)
              (map Print (header space) ++ events (lib space w)
               ++ [Print (failure_line space e)])
              (world_after (lib space w))
      else
        mkRan (Raises e)
              (map Print (header space) ++ events (lib space w))
              (world_after (lib space w))
  end.
Proof.
  unfold iteration, iteration_env, fetch, try_except_Exception, bind,
    print, str, call_Client, call_view_api, always_prints, str_returns.
  simpl.
  destruct (Client space w) as [[h|e] w1]; simpl.
  - destruct (view_api h w1) as [[text|e] w2]; simpl; [reflexivity|].
    destruct (isinstance_Exception e); reflexivity.
  - destruct (isinstance_Exception e); reflexivity.
Qed.

Lemma iteration_outcome space w :
  outcome (iter space w) =
  match outcome (lib space w) with
  | Returns _ => Returns tt
  | Raises e => if isinstance_Exception e then Returns tt else Raises e
  end.
Proof.
  rewrite iteration_by_answer.
  destruct (outcome (lib space w)) as [text|e]; [reflexivity|].
  destruct (isinstance_Exception e); reflexivity.
Qed.

Lemma iteration_world space w :
  world_after (iter space w) = world_after (lib space w).
Proof.
  rewrite iteration_by_answer.
  destruct (outcome (lib space w)) as [text|e]; [reflexivity|].
  destruct (isinstance_Exception e); reflexivity.
Qed.

Lemma iteration_stdout space w :
  stdout (events (iter space w)) = section_lines space (outcome (lib space w)).
Proof.
  rewrite iteration_by_answer. unfold section_lines.
  destruct (outcome (lib space w)) as [text|e];
    [|destruct (isinstance_Exception e)]; cbn [events];
    rewrite !stdout_app, stdout_prints, ?fetch_stdout; simpl;
    try rewrite app_nil_r; reflexivity.
Qed.

Lemma iteration_connects space w :
  connects (events (iter space w)) = [space].
Proof.
  rewrite iteration_by_answer.
  destruct (outcome (lib space w)) as [text|e];
    [|destruct (isinstance_Exception e)]; cbn [events];
    rewrite !connects_app, connects_prints, ?fetch_connects; reflexivity.
Qed.

Lemma fails_with_fetch space w e w' :
  fails_with Client view_api space w e w' <->
  outcome (lib space w) = Raises e /\ world_after (lib space w) = w'.
Proof.
  split.
  - intros [HC | h w1 HC HV].
    + rewrite (fetch_connect_raises _ _ _ _ HC). auto.
    + rewrite (fetch_connected _ _ _ _ HC), HV. auto.
  - intros [Ho Hw].
    destruct (Client space w) as [[h|e0] w1] eqn:HC.
    + rewrite (fetch_connected _ _ _ _ HC) in Ho, Hw. simpl in Ho, Hw.
      apply (description_fails _ _ _ _ _ _ _ _ h w1 HC).
      destruct (view_api h w1) as [r w2]. simpl in Ho, Hw. congruence.
    + rewrite (fetch_connect_raises _ _ _ _ HC) in Ho, Hw. simpl in Ho, Hw.
      apply connection_fails. congruence.
Qed.

(** The loop, one identifier at a time. *)
Lemma discover_cons space l w :
  run (space :: l) w =
  match outcome (iter space w) with
  | Returns _ =>
      mkRan (outcome (run l (world_after (iter space w))))
            (events (iter space w) ++ events (run l (world_after (iter space w))))
            (world_after (run l (world_after (iter space w))))
  | Raises e => mkRan (Raises e) (events (iter space w)) (world_after (iter space w))
  end.
Proof. reflexivity. Qed.

(** A prefix that returns hands over to the rest of the list. *)
Lemma discover_app pre l w evs w1 :
  run pre w = mkRan (Returns tt) evs w1 ->
  run (pre ++ l) w =
  mkRan (outcome (run l w1)) (evs ++ events (run l w1)) (world_after (run l w1)).
Proof.
  revert w evs. induction pre as [|s pre IH]; intros w evs H.
  - cbn in H. injection H as <- <-. simpl. now destruct (run l w).
  - rewrite <- app_comm_cons, discover_cons.
    rewrite discover_cons in H.
    destruct (outcome (iter s w)) as [[]|e]; [|discriminate].
    injection H as Ho He Hw.
    destruct (run pre (world_after (iter s w))) as [o evp wp] eqn:Hp.
    simpl in Ho, He, Hw. subst o evs wp.
    rewrite (IH _ _ Hp). simpl. now rewrite app_assoc.
Qed.

(** The printed lines are determined by the identifiers and the answers. *)
Lemma run_transcript l w :
  stdout (events (run l w)) = transcript l (answers Client view_api l w).
Proof.
  revert w. induction l as [|s l IH]; intros w; [reflexivity|].
  rewrite discover_cons. simpl answers. simpl transcript.
  destruct (outcome (iter s w)) as [[]|e]; simpl events.
  - now rewrite stdout_app, iteration_stdout, IH.
  - rewrite iteration_stdout. destruct l; simpl; now rewrite app_nil_r.
Qed.

(** How the loop ends is determined by the answers. *)
Lemma outcome_by_answers l w w' :
  answers Client view_api l w = answers Client view_api l w' ->
  outcome (run l w) = outcome (run l w').
Proof.
  revert w w'. induction l as [|s l IH]; intros w w' H; [reflexivity|].
  rewrite !discover_cons. simpl in H. injection H as Ha H.
  rewrite !iteration_outcome in H |- *. rewrite <- Ha in H |- *.
  destruct (outcome (lib s w)) as [text|e]; cbn [outcome].
  - apply (IH _ _ H).
  - destruct (isinstance_Exception e); cbn [outcome];
      [apply (IH _ _ H) | reflexivity].
Qed.

(** C5.  Over the empty list the loop returns at once: no event at all,
    nothing on the console, the world untouched, exit status 0. *)
Theorem empty_list_no_output w :
  run [] w = mkRan (Returns tt) [] w /\
  stdout (events (run [] w)) = [] /\
  console (stdout (events (run [] w))) = EmptyString /\
  exit_code (outcome (run [] w)) = 0%Z.
Proof. repeat split. Qed.



(** C8.  An iteration starts with the three header lines and only then
    calls [Client]; so when [Client(space)] raises, the header is already
    printed, and the failure line, printed when the exception is an
    [Exception], comes right after the attempt. *)
Theorem header_before_connection space w :
  exists rest : list event,
    events (iter space w) =
      Print (newline ++ str_mul "=" 60)
      :: Print ("Discovering endpoints for: " ++ space)
      :: Print (str_mul "=" 60)
      :: Connect space :: rest
    /\ forall e w',
         Client space w = (Raises e, w') ->
         rest = if isinstance_Exception e
                then [Print (failure_line space e)] else [].
Proof.
  rewrite iteration_by_answer.
  destruct (Client space w) as [[h|e] w1] eqn:HC.
  - rewrite (fetch_connected _ _ _ _ HC). cbn [outcome events].
    destruct (fst (view_api h w1)) as [text|e];
      [|destruct (isinstance_Exception e)];
      eexists; (split; [reflexivity | intros ? ? [=]]).
  - rewrite (fetch_connect_raises _ _ _ _ HC). cbn [outcome events].
    destruct (isinstance_Exception e) eqn:Hc;
      eexists; (split; [reflexivity | intros ? ? [= <- _]; now rewrite Hc]).
Qed.

(** C9.  Whether [Client(space)] raises the [Exception] [e] or the
    [view_api] call does, the iteration prints the header and then the
    one line "Failed to connect to <space>: <e>": the printed lines are
    the same in both cases. *)
Theorem failure_line_wording space w e w' :
  fails_with Client view_api space w e w' ->
  isinstance_Exception e = true ->
  stdout (events (iter space w)) =
    header space ++ ["Failed to connect to " ++ space ++ ": " ++ str_e e]%string
  /\ outcome (iter space w) = Returns tt.
Proof.
  intros Hfail Hcls. apply fails_with_fetch in Hfail as [Ho _].
  rewrite iteration_stdout, iteration_outcome, Ho. unfold section_lines.
  rewrite Hcls. split; reflexivity.
Qed.

(** C10.  Take any identifier [space] of the list that the loop gets to.
    If [Client(space)] or the [view_api] call raises an exception [e]
    that is not an [Exception], the handler lets it through: the run
    ends with [e] raised right after the failed call, no failure line is
    printed, and nothing is done for the identifiers of [post]. *)
Theorem non_Exception_propagates pre space post w0 evs w1 e w2 :
  run pre w0 = mkRan (Returns tt) evs w1 ->
  fails_with Client view_api space w1 e w2 ->
  isinstance_Exception e = false ->
  run (pre ++ space :: post) w0 =
    mkRan (Raises e)
          (evs ++ map Print (header space) ++ events (lib space w1))
          w2
  /\ connects (events (run (pre ++ space :: post) w0)) =
       connects evs ++ [space].
Proof.
  intros Hpre Hfail Hcls.
  apply fails_with_fetch in Hfail as [Ho Hw].
  assert (Hrun : run (pre ++ space :: post) w0 =
                 mkRan (Raises e)
                       (evs ++ map Print (header space) ++ events (lib space w1))
                       w2).
  { rewrite (discover_app _ _ _ _ _ Hpre), discover_cons.
    rewrite iteration_outcome, iteration_world, iteration_by_answer, Ho, Hcls, Hw.
    reflexivity. }
  split; [exact Hrun|].
  rewrite Hrun. cbn [events].
  rewrite !connects_app, connects_prints, fetch_connects. reflexivity.
Qed.

End RunnerProperties.

(** ** The theorems at work on the toy library *)

(** Against C1 without the restriction to class [Exception]:
    [Client(stop)] raises an interrupt; no failure line is printed for
    stop, the interrupt leaves the loop, and ok is never tried. *)
Lemma interrupt_not_reported_loop_stops :
  fails_with toy_Client toy_view_api "stop" 0 KeyboardInterrupt 1
  /\ stdout (events (discover toy_Client toy_view_api ["stop"; "ok"] 0)) =
       header "stop"
  /\ ~ In (failure_line "stop" KeyboardInterrupt)
          (stdout (events (discover toy_Client toy_view_api ["stop"; "ok"] 0)))
  /\ ~ In "ok"
          (connects (events (discover toy_Client toy_view_api ["stop"; "ok"] 0)))
  /\ outcome (discover toy_Client toy_view_api ["stop"; "ok"] 0) =
       Raises KeyboardInterrupt.
Proof.
  split; [apply connection_fails; reflexivity|].
  split; [reflexivity|].
  split; [|split; [|reflexivity]].
  - cbv. intros [H|[H|[H|[]]]]; discriminate H.
  - cbv. intros [H|[]]; discriminate H.
Qed.





Lemma header_before_connection_witness :
  toy_Client "down" 0 = (Raises ConnectionError, 1)
  /\ exists rest : list event,
       events (iteration toy_Client toy_view_api "down" 0) =
         Print header_top :: Print (header_label "down") :: Print separator
         :: Connect "down" :: rest
       /\ rest = [Print "Failed to connect to down: Could not fetch config"].
Proof.
  split; [reflexivity|].
  destruct (header_before_connection toy_Client toy_view_api "down" 0)
    as (rest & Hev & Hrest).
  exists rest. split; [exact Hev|].
  apply (Hrest ConnectionError 1 eq_refl).
Defined.

Lemma failure_line_wording_witness :
  fails_with toy_Client toy_view_api "garbled" 0 ValueError 2
  /\ isinstance_Exception ValueError = true
  /\ stdout (events (iteration toy_Client toy_view_api "garbled" 0)) =
       header "garbled"
       ++ ["Failed to connect to garbled: Could not parse API info"]
  /\ In Describe (events (iteration toy_Client toy_view_api "garbled" 0)).
Proof.
  assert (Hfail : fails_with toy_Client toy_view_api "garbled" 0 ValueError 2)
    by (apply (description_fails _ _ toy_Client toy_view_api "garbled" 0
                 ValueError 2 "garbled" 1); reflexivity).
  split; [exact Hfail | split; [reflexivity | split]].
  - apply (failure_line_wording toy_Client toy_view_api "garbled" 0
             ValueError 2 Hfail eq_refl).
  - cbv. do 4 right. left. reflexivity.
Defined.

Lemma non_Exception_propagates_witness :
  discover toy_Client toy_view_api ["ok"] 0 =
    mkRan (Returns tt)
          (events (discover toy_Client toy_view_api ["ok"] 0)) 2
  /\ fails_with toy_Client toy_view_api "stop" 2 KeyboardInterrupt 3
  /\ isinstance_Exception KeyboardInterrupt = false
  /\ discover toy_Client toy_view_api ["ok"; "stop"; "down"] 0 =
       mkRan (Raises KeyboardInterrupt)
             (events (discover toy_Client toy_view_api ["ok"] 0)
              ++ map Print (header "stop") ++ [Connect "stop"])
             3
  /\ connects (events (discover toy_Client toy_view_api
                         ["ok"; "stop"; "down"] 0)) = ["ok"; "stop"].
Proof.
  assert (Hpre : discover toy_Client toy_view_api ["ok"] 0 =
                 mkRan (Returns tt)
                       (events (discover toy_Client toy_view_api ["ok"] 0)) 2)
    by reflexivity.
  assert (Hfail : fails_with toy_Client toy_view_api "stop" 2
                    KeyboardInterrupt 3)
    by (apply connection_fails; reflexivity).
  split; [exact Hpre | split; [exact Hfail | split; [reflexivity|]]].
  apply (non_Exception_propagates toy_Client toy_view_api
           ["ok"] "stop" ["down"] 0 _ 2 KeyboardInterrupt 3
           Hpre Hfail eq_refl).
Defined.

(** ** Further properties of the loop and of its calls into the library *)

Section RunnerCalls.

Context {World Handle : Type}.
Variable Client : string -> World -> result Handle * World.
Variable view_api : Handle -> World -> result string * World.

Local Notation "'run'" := (discover Client view_api).
Local Notation "'iter'" := (iteration Client view_api).
Local Notation "'lib'" := (fetch Client view_api).

Lemma describes_app (a b : list event) :
  describes (a ++ b) = describes a + describes b.
Proof.
  induction a as [|[s|s|] a IH]; simpl; try rewrite IH; reflexivity.
Qed.

Lemma str_length_app (a b : string) :
  String.length (a ++ b) = String.length a + String.length b.
Proof.
  induction a as [|ch a IH]; simpl; [|rewrite IH]; reflexivity.
Qed.

(** [s * n] is [n] times as long as [s]; the separator line of the
    header is 60 characters wide whatever the identifier. *)
Theorem str_mul_length (s : string) (n : nat) :
  String.length (str_mul s n) = n * String.length s.
Proof.
  induction n as [|n IH]; simpl; [reflexivity|].
  now rewrite str_length_app, IH.
Qed.


Lemma describes_prints (lines : list string) :
  describes (map Print lines) = 0.
Proof.
  induction lines as [|l lines IH]; simpl; auto.
Qed.

Lemma fetch_describes space w :
  describes (events (lib space w)) =
  match fst (Client space w) with
  | Returns _ => 1
  | Raises _ => 0
  end.
Proof.
  destruct (Client space w) as [[h|e] w1] eqn:HC; cbn [fst].
  - now rewrite (fetch_connected Client view_api _ _ _ _ HC).
  - now rewrite (fetch_connect_raises Client view_api _ _ _ _ HC).
Qed.

Lemma iteration_describes_fetch space w :
  describes (events (iter space w)) = describes (events (lib space w)).
Proof.
  rewrite (iteration_by_answer Client view_api).
  destruct (outcome (lib space w)) as [text|e];
    [|destruct (isinstance_Exception e)]; cbn [events];
    rewrite !describes_app, describes_prints; simpl;
    now rewrite ?Nat.add_0_r.
Qed.

(** In one iteration [view_api] is called once when [Client(space)]
    returned a client, and not at all when it raised. *)
Theorem view_api_called_iff_connected space w :
  describes (events (iteration Client view_api space w)) =
  match fst (Client space w) with
  | Returns _ => 1
  | Raises _ => 0
  end.
Proof.
  rewrite iteration_describes_fetch. apply fetch_describes.
Qed.

(** Over a whole run [view_api] is never called more often than
    [Client], and [Client] never more often than there are
    identifiers. *)
Theorem calls_bounded l w :
  describes (events (run l w)) <= length (connects (events (run l w)))
  /\ length (connects (events (run l w))) <= length l.
Proof.
  revert w. induction l as [|s l IH]; intros w; [split; constructor|].
  rewrite (discover_cons Client view_api).
  assert (Hd : describes (events (iter s w)) <= 1).
  { rewrite iteration_describes_fetch, fetch_describes.
    destruct (fst (Client s w)); auto. }
  destruct (outcome (iter s w)) as [[]|e]; cbn [events].
  - destruct (IH (world_after (iter s w))) as [H1 H2].
    rewrite describes_app, connects_app, (iteration_connects Client view_api).
    simpl. split.
    + apply (Nat.add_le_mono _ 1 _ _ Hd H1).
    + now apply le_n_S.
  - rewrite (iteration_connects Client view_api). simpl. split.
    + exact Hd.
    + apply le_n_S, Nat.le_0_l.
Qed.

(** The loop over [l1 ++ l2] is the loop over [l1] followed, when that
    one returns, by the loop over [l2] from the world it left; when the
    loop over [l1] raises, [l2] plays no part. *)
Theorem discover_concat l1 l2 w :
  discover Client view_api (l1 ++ l2) w =
  match outcome (run l1 w) with
  | Returns _ =>
      mkRan (outcome (run l2 (world_after (run l1 w))))
            (events (run l1 w) ++ events (run l2 (world_after (run l1 w))))
            (world_after (run l2 (world_after (run l1 w))))
  | Raises _ => run l1 w
  end.
Proof.
  destruct (run l1 w) as [[[]|e] evs w1] eqn:H1; cbn [outcome events world_after].
  - apply (discover_app Client view_api _ _ _ _ _ H1).
  - revert w evs H1. induction l1 as [|s l1 IH]; intros w evs H1;
      [discriminate|].
    rewrite <- app_comm_cons, (discover_cons Client view_api).
    rewrite (discover_cons Client view_api) in H1.
    destruct (outcome (iter s w)) as [[]|e0]; [|exact H1].
    injection H1 as Ho He Hw.
    destruct (run l1 (world_after (iter s w))) as [o evp wp] eqn:Hp.
    cbn [outcome events world_after] in Ho, He, Hw. subst o evs wp.
    rewrite (IH _ _ Hp). reflexivity.
Qed.

End RunnerCalls.

(** ** Properties over any console *)

Section EnvironmentProperties.

Context {World Handle : Type}.
Variable Client : string -> World -> result Handle * World.
Variable view_api : Handle -> World -> result string * World.
Variable builtin_print : string -> World -> result unit * World.
Variable builtin_str : raised -> World -> result string * World.

Local Notation "'runE'" :=
  (discover_env Client view_api builtin_print builtin_str).
Local Notation "'iterE'" :=
  (iteration_env Client view_api builtin_print builtin_str).
Local Notation "'lib'" := (fetch Client view_api).

Lemma discover_env_cons space l w :
  runE (space :: l) w =
  match outcome (iterE space w) with
  | Returns _ =>
      mkRan (outcome (runE l (world_after (iterE space w))))
            (events (iterE space w)
             ++ events (runE l (world_after (iterE space w))))
            (world_after (runE l (world_after (iterE space w))))
  | Raises e =>
      mkRan (Raises e) (events (iterE space w)) (world_after (iterE space w))
  end.
Proof. reflexivity. Qed.

Lemma discover_env_app pre l w evs w1 :
  runE pre w = mkRan (Returns tt) evs w1 ->
  runE (pre ++ l) w =
  mkRan (outcome (runE l w1)) (evs ++ events (runE l w1))
        (world_after (runE l w1)).
Proof.
  revert w evs. induction pre as [|s pre IH]; intros w evs H.
  - cbn in H. injection H as <- <-. simpl. now destruct (runE l w).
  - rewrite <- app_comm_cons, discover_env_cons.
    rewrite discover_env_cons in H.
    destruct (outcome (iterE s w)) as [[]|e]; [|discriminate].
    injection H as Ho He Hw.
    destruct (runE pre (world_after (iterE s w))) as [o evp wp] eqn:Hp.
    simpl in Ho, He, Hw. subst o evs wp.
    rewrite (IH _ _ Hp). simpl. now rewrite app_assoc.
Qed.

(** The three header lines went out one after the other. *)
Lemma header_printed space w wh :
  prints builtin_print (header space) w =
    mkRan (Returns tt) (map Print (header space)) wh ->
  exists wa wb,
    builtin_print (newline ++ str_mul "=" 60) w = (Returns tt, wa) /\
    builtin_print ("Discovering endpoints for: " ++ space) wa = (Returns tt, wb) /\
    builtin_print (str_mul "=" 60) wb = (Returns tt, wh).
Proof.
  intros H.
  unfold prints, header, header_top, header_label, separator, bind, print, ret
    in H.
  destruct (builtin_print (newline ++ str_mul "=" 60) w) as [[[]|e] wa] eqn:Ha;
    cbn [outcome events world_after] in H; [|discriminate].
  destruct (builtin_print ("Discovering endpoints for: " ++ space) wa)
    as [[[]|e] wb] eqn:Hb; cbn [outcome events world_after] in H;
    [|discriminate].
  destruct (builtin_print (str_mul "=" 60) wb) as [[[]|e] wc] eqn:Hc;
    cbn [outcome events world_after] in H; [|discriminate].
  injection H as <-. exists wa, wb. auto.
Qed.

Local Ltac unfold_iteration :=
  unfold iteration_env, try_except_Exception, bind, print, str,
    call_Client, call_view_api.

Local Ltac step H := rewrite H; cbn [outcome events world_after].

(** One iteration in which the library fails and the failure is
    reported. *)
Lemma iteration_env_reports space w wh e w2 detail w3 w4 :
  prints builtin_print (header space) w =
    mkRan (Returns tt) (map Print (header space)) wh ->
  fails_with Client view_api space wh e w2 ->
  isinstance_Exception e = true ->
  builtin_str e w2 = (Returns detail, w3) ->
  builtin_print ("Failed to connect to " ++ space ++ ": " ++ detail) w3 =
    (Returns tt, w4) ->
  iterE space w =
  mkRan (Returns tt)
        (map Print (header space) ++ events (lib space wh)
         ++ [Print ("Failed to connect to " ++ space ++ ": " ++ detail)])
        w4.
Proof.
  intros Hh Hfail Hcls Hs Hp.
  destruct (header_printed _ _ _ Hh) as (wa & wb & Ha & Hb & Hc).
  unfold_iteration. step Ha. step Hb. step Hc.
  destruct Hfail as [HC | h w1 HC HV].
  - rewrite (fetch_connect_raises Client view_api _ _ _ _ HC).
    step HC. step Hcls. step Hs. step Hp. reflexivity.
  - rewrite (fetch_connected Client view_api _ _ _ _ HC), HV.
    step HC. step HV. step Hcls. step Hs. step Hp. reflexivity.
Qed.

(** One iteration in which everything works. *)
Lemma iteration_env_prints_schema space w wh h w2 text w3 w4 :
  prints builtin_print (header space) w =
    mkRan (Returns tt) (map Print (header space)) wh ->
  Client space wh = (Returns h, w2) ->
  view_api h w2 = (Returns text, w3) ->
  builtin_print text w3 = (Returns tt, w4) ->
  iterE space w =
  mkRan (Returns tt)
        (map Print (header space) ++ [Connect space; Describe; Print text])
        w4.
Proof.
  intros Hh HC HV Hp.
  destruct (header_printed _ _ _ Hh) as (wa & wb & Ha & Hb & Hc).
  unfold_iteration. step Ha. step Hb. step Hc.
  step HC. step HV. step Hp. reflexivity.
Qed.

(** C1 (as amended).  Take any identifier [space] of the list, with
    [pre] before it and [post] after it, that the loop gets to and
    whose header is printed.  If [Client(space)] or the [view_api] call
    that follows raises an exception [e] of class [Exception], and
    [str(e)] and the [print] of the failure line both return, then the
    run prints the header of [space] followed by the line
    "Failed to connect to <space>: <str(e)>" and goes on with [post] as
    a run over [post] would, from the world the handler left: [e] is not
    re-raised, and [Client(space)] was called once. *)
Theorem failure_reported_and_loop_continues
  pre space post w0 evs w1 wh e w2 detail w3 w4 :
  runE pre w0 = mkRan (Returns tt) evs w1 ->
  prints builtin_print (header space) w1 =
    mkRan (Returns tt) (map Print (header space)) wh ->
  fails_with Client view_api space wh e w2 ->
  isinstance_Exception e = true ->
  builtin_str e w2 = (Returns detail, w3) ->
  builtin_print ("Failed to connect to " ++ space ++ ": " ++ detail) w3 =
    (Returns tt, w4) ->
  runE (pre ++ space :: post) w0 =
    mkRan (outcome (runE post w4))
          (evs ++ map Print (header space) ++ events (lib space wh)
               ++ Print ("Failed to connect to " ++ space ++ ": " ++ detail)
               :: events (runE post w4))
          (world_after (runE post w4))
  /\ connects (events (lib space wh)) = [space].
Proof.
  intros Hpre Hh Hfail Hcls Hs Hp.
  split; [|apply (fetch_connects Client view_api)].
  rewrite (discover_env_app _ _ _ _ _ Hpre), discover_env_cons.
  rewrite (iteration_env_reports _ _ _ _ _ _ _ _ Hh Hfail Hcls Hs Hp).
  cbn [outcome events world_after]. f_equal.
  rewrite <- !app_assoc. reflexivity.
Qed.

(** C3 (as amended).  Take any identifier [space] of the list that the
    loop gets to and whose header is printed.  If [Client(space)]
    returns a client, its [view_api] returns [text], and the [print] of
    [text] returns, then the section of [space] is its header followed
    by [text] itself, and on the console [text] stands unchanged between
    the header and a newline. *)
Theorem schema_printed_verbatim
  pre space post w0 evs w1 wh h w2 text w3 w4 :
  runE pre w0 = mkRan (Returns tt) evs w1 ->
  prints builtin_print (header space) w1 =
    mkRan (Returns tt) (map Print (header space)) wh ->
  Client space wh = (Returns h, w2) ->
  view_api h w2 = (Returns text, w3) ->
  builtin_print text w3 = (Returns tt, w4) ->
  stdout (events (runE (pre ++ space :: post) w0)) =
    stdout evs ++ header space ++ text :: stdout (events (runE post w4))
  /\ console (stdout (events (runE (pre ++ space :: post) w0))) =
    (console (stdout evs) ++ console (header space) ++ text ++ newline
       ++ console (stdout (events (runE post w4))))%string.
Proof.
  intros Hpre Hh HC HV Hp.
  assert (Hout : stdout (events (runE (pre ++ space :: post) w0)) =
                 stdout evs ++ header space ++ text
                   :: stdout (events (runE post w4))).
  { rewrite (discover_env_app _ _ _ _ _ Hpre), discover_env_cons.
    rewrite (iteration_env_prints_schema _ _ _ _ _ _ _ _ Hh HC HV Hp).
    cbn [outcome events world_after].
    rewrite !stdout_app, stdout_prints. reflexivity. }
  split; [exact Hout|].
  rewrite Hout, !console_app. reflexivity.
Qed.


Section NothingRaisesButExceptions.

(** [print] and [str(e)] never raise, and the library raises nothing
    outside class [Exception]. *)
Hypothesis print_returns :
  forall s w e, fst (builtin_print s w) <> Raises e.
Hypothesis str_always_returns :
  forall e0 w e, fst (builtin_str e0 w) <> Raises e.
Hypothesis Client_raises_Exception :
  forall s w e, fst (Client s w) = Raises e -> isinstance_Exception e = true.
Hypothesis view_api_raises_Exception :
  forall h w e, fst (view_api h w) = Raises e -> isinstance_Exception e = true.

Lemma prints_return lines w :
  prints builtin_print lines w =
  mkRan (Returns tt) (map Print lines)
        (world_after (prints builtin_print lines w)).
Proof.
  revert w. induction lines as [|l lines IH]; intros w; [reflexivity|].
  simpl. unfold bind, print.
  destruct (builtin_print l w) as [[[]|e] w1] eqn:Hl.
  - cbn [outcome events world_after]. now rewrite IH.
  - exfalso. apply (print_returns l w e). now rewrite Hl.
Qed.

(** Then every iteration returns, having printed its header and one
    more line and called [Client] once. *)
Lemma iteration_env_returns space w :
  exists body : string,
    outcome (iterE space w) = Returns tt /\
    stdout (events (iterE space w)) = header space ++ [body] /\
    connects (events (iterE space w)) = [space].
Proof.
  pose proof (prints_return (header space) w) as Hh.
  set (wh := world_after (prints builtin_print (header space) w)) in Hh.
  destruct (fetch Client view_api space wh) as [[text|e] evf wf] eqn:Hf.
  - (* the library returned a text *)
    destruct (Client space wh) as [[h|e] w2] eqn:HC;
      [|rewrite (fetch_connect_raises Client view_api _ _ _ _ HC) in Hf;
        discriminate].
    rewrite (fetch_connected Client view_api _ _ _ _ HC) in Hf.
    destruct (view_api h w2) as [r w3] eqn:HV. cbn [fst snd] in Hf.
    injection Hf as -> <- <-.
    destruct (builtin_print text w3) as [[[]|e] w4] eqn:Hp;
      [|exfalso; apply (print_returns text w3 e); now rewrite Hp].
    exists text.
    rewrite (iteration_env_prints_schema _ _ _ _ _ _ _ _ Hh HC HV Hp).
    cbn [outcome events]. rewrite stdout_app, connects_app, stdout_prints,
      connects_prints. auto.
  - (* the library raised *)
    assert (Hfail : fails_with Client view_api space wh e wf).
    { apply (fails_with_fetch Client view_api). now rewrite Hf. }
    assert (Hcls : isinstance_Exception e = true).
    { destruct Hfail as [HC | h w1 HC HV].
      - apply (Client_raises_Exception space wh e). now rewrite HC.
      - apply (view_api_raises_Exception h w1 e). now rewrite HV. }
    destruct (builtin_str e wf) as [[detail|e'] w3] eqn:Hs;
      [|exfalso; apply (str_always_returns e wf e'); now rewrite Hs].
    destruct (builtin_print
                ("Failed to connect to " ++ space ++ ": " ++ detail) w3)
      as [[[]|e'] w4] eqn:Hp;
      [|exfalso; eapply (print_returns _ w3 e'); now rewrite Hp].
    exists ("Failed to connect to " ++ space ++ ": " ++ detail)%string.
    rewrite (iteration_env_reports _ _ _ _ _ _ _ _ Hh Hfail Hcls Hs Hp).
    cbn [outcome events].
    rewrite !stdout_app, !connects_app, stdout_prints, connects_prints.
    rewrite (fetch_stdout Client view_api), (fetch_connects Client view_api).
    auto.
Qed.



End NothingRaisesButExceptions.

End EnvironmentProperties.

(** ** The theorems at work on the ASCII console *)

Lemma always_prints_returns (s : string) (w : nat) (e : raised) :
  fst (always_prints s w) <> Raises e.
Proof. discriminate. Qed.

Lemma str_returns_returns (e0 : raised) (w : nat) (e : raised) :
  fst (str_returns e0 w) <> Raises e.
Proof. discriminate. Qed.

Lemma calm_Client_raises_Exception (s : string) (w : nat) (e : raised) :
  fst (calm_Client s w) = Raises e -> isinstance_Exception e = true.
Proof.
  unfold calm_Client. destruct (String.eqb s "down"); simpl; intros [=].
  now subst e.
Qed.

Lemma toy_view_api_raises_Exception (h : string) (w : nat) (e : raised) :
  fst (toy_view_api h w) = Raises e -> isinstance_Exception e = true.
Proof.
  unfold toy_view_api. destruct (String.eqb h "garbled"); simpl; intros [=].
  now subst e.
Qed.

Lemma failure_reported_and_loop_continues_witness :
  discover_env toy_Client toy_view_api ascii_print str_returns ["ok"] 0 =
    mkRan (Returns tt)
          (events (discover_env toy_Client toy_view_api ascii_print
                     str_returns ["ok"] 0)) 2
  /\ prints ascii_print (header "down") 2 =
       mkRan (Returns tt) (map Print (header "down")) 2
  /\ fails_with toy_Client toy_view_api "down" 2 ConnectionError 3
  /\ isinstance_Exception ConnectionError = true
  /\ str_returns ConnectionError 3 = (Returns "Could not fetch config", 3)
  /\ ascii_print "Failed to connect to down: Could not fetch config" 3 =
       (Returns tt, 3)
  /\ stdout (events (discover_env toy_Client toy_view_api ascii_print
                       str_returns ["ok"; "down"; "garbled"] 0)) =
       header "ok" ++ ["Client.predict() Usage Info for ok"]
       ++ header "down" ++ ["Failed to connect to down: Could not fetch config"]
       ++ header "garbled"
       ++ ["Failed to connect to garbled: Could not parse API info"].
Proof.
  assert (Hpre : discover_env toy_Client toy_view_api ascii_print str_returns
                   ["ok"] 0 =
                 mkRan (Returns tt)
                       (events (discover_env toy_Client toy_view_api
                                  ascii_print str_returns ["ok"] 0)) 2)
    by reflexivity.
  assert (Hfail : fails_with toy_Client toy_view_api "down" 2 ConnectionError 3)
    by (apply connection_fails; reflexivity).
  split; [exact Hpre|]. split; [reflexivity|]. split; [exact Hfail|].
  split; [reflexivity|]. split; [reflexivity|]. split; [reflexivity|].
  destruct (failure_reported_and_loop_continues
              toy_Client toy_view_api ascii_print str_returns
              ["ok"] "down" ["garbled"] 0 _ 2 2 ConnectionError 3
              "Could not fetch config" 3 3
              Hpre eq_refl Hfail eq_refl eq_refl eq_refl) as [Hrun _].
  change (["ok"; "down"; "garbled"]) with (["ok"] ++ "down" :: ["garbled"]).
  rewrite Hrun. reflexivity.
Defined.


Lemma schema_printed_verbatim_witness :
  discover_env toy_Client toy_view_api ascii_print str_returns ["down"] 0 =
    mkRan (Returns tt)
          (events (discover_env toy_Client toy_view_api ascii_print
                     str_returns ["down"] 0)) 1
  /\ prints ascii_print (header "ok") 1 =
       mkRan (Returns tt) (map Print (header "ok")) 1
  /\ toy_Client "ok" 1 = (Returns "ok", 2)
  /\ toy_view_api "ok" 2 = (Returns "Client.predict() Usage Info for ok", 3)
  /\ ascii_print "Client.predict() Usage Info for ok" 3 = (Returns tt, 3)
  /\ stdout (events (discover_env toy_Client toy_view_api ascii_print
                       str_returns ["down"; "ok"; "garbled"] 0)) =
       header "down" ++ ["Failed to connect to down: Could not fetch config"]
       ++ header "ok" ++ "Client.predict() Usage Info for ok"
       :: header "garbled"
       ++ ["Failed to connect to garbled: Could not parse API info"].
Proof.
  assert (Hpre : discover_env toy_Client toy_view_api ascii_print str_returns
                   ["down"] 0 =
                 mkRan (Returns tt)
                       (events (discover_env toy_Client toy_view_api
                                  ascii_print str_returns ["down"] 0)) 1)
    by reflexivity.
  split; [exact Hpre|]. split; [reflexivity|]. split; [reflexivity|].
  split; [reflexivity|]. split; [reflexivity|].
  destruct (schema_printed_verbatim
              toy_Client toy_view_api ascii_print str_returns
              ["down"] "ok" ["garbled"] 0 _ 1 1 "ok" 2
              "Client.predict() Usage Info for ok" 3 3
              Hpre eq_refl eq_refl eq_refl eq_refl) as [Hout _].
  change (["down"; "ok"; "garbled"]) with (["down"] ++ "ok" :: ["garbled"]).
  rewrite Hout. reflexivity.
Defined.

(** Against C3 as first stated: [Client] and [view_api] both return,
    the text has an accent, and the console is ASCII.  The [print] of
    the text raises inside the [try]; the handler prints a failure line
    for the identifier, and the text is nowhere in the output. *)
Lemma unprintable_schema_not_in_output :
  toy_Client "ok" 0 = (Returns "ok", 1)
  /\ accented_view_api "ok" 1 = (Returns accented, 2)
  /\ stdout (events (discover_env toy_Client accented_view_api ascii_print
                       str_returns ["ok"] 0)) =
       header "ok"
       ++ ["Failed to connect to ok: ascii codec cannot encode character"]
  /\ ~ In accented
          (stdout (events (discover_env toy_Client accented_view_api
                             ascii_print str_returns ["ok"] 0))).
Proof.
  split; [reflexivity|]. split; [reflexivity|]. split; [reflexivity|].
  cbv. intros [H|[H|[H|[H|[]]]]]; discriminate H.
Qed.


